(** * Request pipeline and connection loop of the HTTP/3 benchmark client
    (client/src/main.rs), shallowly embedded.

    Modelling choices:
    - [Instant] values are readings of a monotonic clock, in nanoseconds,
      as [nat]; [Duration] is a [nat] as well, and [duration_since]
      saturates at zero as Rust's [Instant::duration_since] does.
    - The u16 status is an [N].
    - The u32 sum [args.warmup + args.requests] is computed modulo 2^32,
      as in a release build (a debug build panics at start-up when it
      overflows, before any request). The counters [requests_sent],
      [requests_done] and the u64 byte counter are [nat]: [requests_sent]
      never exceeds the u32 total, and the others grow by one per event or
      by the bytes of one response.
    - Byte strings ([&[u8]]) are [string]s (lists of 8-bit [ascii]).
    - The quiche engine, the socket and the clock are oracles: every
      call that asks them something reads the answer from a list. *)

From Stdlib Require Import List String Ascii Arith NArith Bool Lia.
Import ListNotations.
#[local] Set Warnings "-abstract-large-number".

Definition Instant := nat.
Definition Duration := nat.

(** [Instant::duration_since]: saturating difference. *)
Definition duration_since (later earlier : Instant) : Duration := later - earlier.

(** ** Parsing the [:status] value *)

(** [std::str::from_utf8]: well-formedness of UTF-8 (no overlong forms,
    no surrogates, nothing above U+10FFFF). *)
Definition in_range (lo hi n : nat) : bool := (lo <=? n) && (n <=? hi).
Definition cont (n : nat) : bool := in_range 128 191 n.

Fixpoint utf8_valid (bs : list nat) : bool :=
  match bs with
  | [] => true
  | b :: r =>
      if b <=? 127 then utf8_valid r
      else if in_range 194 223 b then
        match r with c1 :: r' => cont c1 && utf8_valid r' | _ => false end
      else if in_range 224 239 b then
        match r with
        | c1 :: c2 :: r' =>
            (if b =? 224 then in_range 160 191 c1
             else if b =? 237 then in_range 128 159 c1
             else cont c1) && cont c2 && utf8_valid r'
        | _ => false
        end
      else if in_range 240 244 b then
        match r with
        | c1 :: c2 :: c3 :: r' =>
            (if b =? 240 then in_range 144 191 c1
             else if b =? 244 then in_range 128 143 c1
             else cont c1) && cont c2 && cont c3 && utf8_valid r'
        | _ => false
        end
      else false
  end.

Definition bytes_of (s : string) : list nat := map nat_of_ascii (list_ascii_of_string s).

Definition from_utf8 (v : string) : option string :=
  if utf8_valid (bytes_of v) then Some v else None.

(** [u16::from_str]: decimal digits, an optional leading [+], no empty
    digit string, and an error on overflow past 65535. *)
Definition U16_MAX : N := 65535.

Fixpoint parse_digits (acc : N) (bs : list nat) : option N :=
  match bs with
  | [] => Some acc
  | b :: r =>
      if in_range 48 57 b then
        let acc' := (acc * 10 + N.of_nat (b - 48))%N in
        if (acc' <=? U16_MAX)%N then parse_digits acc' r else None
      else None
  end.

Definition parse_u16 (s : string) : option N :=
  match bytes_of s with
  | [] => None
  | [b] => if (b =? 43) || (b =? 45) then None else parse_digits 0 [b]
  | b :: r => if b =? 43 then parse_digits 0 r else parse_digits 0 (b :: r)
  end.

Definition unwrap_or {A} (o : option A) (d : A) : A :=
  match o with Some x => x | None => d end.

(** [std::str::from_utf8(hdr.value()).unwrap_or("0").parse().unwrap_or(0)] *)
Definition parse_status (v : string) : N :=
  unwrap_or (parse_u16 (unwrap_or (from_utf8 v) "0"%string)) 0%N.

(** ** Data model *)

Record RequestResult := mkResult {
  index : nat;
  r_status : N;
  ttfb : Duration;
  total_time : Duration;
  r_bytes_received : nat }.

Record InflightRequest := mkInflight {
  start : Instant;
  first_byte : option Instant;
  req_status : N;
  req_bytes_received : nat;
  stream_id : nat }.

(** The command-line counts that the pipeline reads (u32 values). *)
Record Args := mkArgs { requests : nat; warmup : nat }.

Definition U32_MOD : N := (2 ^ 32)%N.

(** [let total_requests = args.warmup + args.requests;] in u32 arithmetic. *)
Definition total_requests (a : Args) : nat :=
  N.to_nat ((N.of_nat (warmup a) + N.of_nat (requests a)) mod U32_MOD)%N.

(** A call [conn.close(app, err, reason)]. *)
Definition Close := (bool * nat * string)%type.

(** The loop-local variables of [main] that the pipeline updates; the
    calls made to [conn.close] are recorded in [closes]. *)
Record Pipeline := mkPipeline {
  inflight : option InflightRequest;
  requests_sent : nat;
  requests_done : nat;
  results : list RequestResult;
  closes : list Close }.

Definition init : Pipeline := mkPipeline None 0 0 [] [].

Definition set_inflight (o : option InflightRequest) (s : Pipeline) : Pipeline :=
  mkPipeline o (requests_sent s) (requests_done s) (results s) (closes s).
Definition set_requests_sent (n : nat) (s : Pipeline) : Pipeline :=
  mkPipeline (inflight s) n (requests_done s) (results s) (closes s).
Definition set_requests_done (n : nat) (s : Pipeline) : Pipeline :=
  mkPipeline (inflight s) (requests_sent s) n (results s) (closes s).
Definition push_result (r : RequestResult) (s : Pipeline) : Pipeline :=
  mkPipeline (inflight s) (requests_sent s) (requests_done s) (results s ++ [r]) (closes s).
Definition close (c : Close) (s : Pipeline) : Pipeline :=
  mkPipeline (inflight s) (requests_sent s) (requests_done s) (results s) (closes s ++ [c]).
Definition set_closes (cl : list Close) (s : Pipeline) : Pipeline :=
  mkPipeline (inflight s) (requests_sent s) (requests_done s) (results s) cl.

(** [quiche::h3::Event], with the fields the client reads. *)
Inductive Event :=
| Headers (list : list (string * string))
| Data
| Finished
| Reset (e : nat)
| GoAway
| PriorityUpdate.

(** ** Event handling (the [match h3.poll(&mut conn)] arms) *)

(** [for hdr in &list { if hdr.name() == b":status" { req.status = ... } }] *)
Definition read_status (req : InflightRequest) (list : list (string * string)) : InflightRequest :=
  fold_left (fun req hdr =>
      if String.eqb (fst hdr) ":status" then
        mkInflight (start req) (first_byte req) (parse_status (snd hdr))
                   (req_bytes_received req) (stream_id req)
      else req) list req.

(** [while let Ok(read) = h3.recv_body(..) { req.bytes_received += read }];
    [body] lists the successive [Ok(read)] values before the first error. *)
Definition add_body (req : InflightRequest) (body : list nat) : InflightRequest :=
  mkInflight (start req) (first_byte req) (req_status req)
             (fold_left Nat.add body (req_bytes_received req)) (stream_id req).

(** [if requests_done >= total_requests { conn.close(true, 0x100, b"done") }] *)
Definition close_if_done (a : Args) (s : Pipeline) : Pipeline :=
  if total_requests a <=? requests_done s then close (true, 256, "done"%string) s else s.

(** One event [Ok((stream_id, ev))], observed when the clock reads [now];
    [body] is what [recv_body] returns if the event is [Data]. *)
Definition on_event (a : Args) (now : Instant) (body : list nat)
    (sid : nat) (ev : Event) (s : Pipeline) : Pipeline :=
  match ev with
  | Headers list =>
      match inflight s with
      | Some req =>
          if sid =? stream_id req then
            let req1 := mkInflight (start req) (Some now) (req_status req)
                                   (req_bytes_received req) (stream_id req) in
            set_inflight (Some (read_status req1 list)) s
          else s
      | None => s
      end
  | Data =>
      match inflight s with
      | Some req =>
          if sid =? stream_id req then set_inflight (Some (add_body req body)) s
          else s
      | None => s
      end
  | Finished =>
      let s1 :=
        match inflight s with
        | Some req =>
            (* [inflight.take()] *)
            let s0 := set_inflight None s in
            if sid =? stream_id req then
              let s' :=
                if warmup a <=? requests_done s0 then
                  push_result
                    (mkResult (requests_done s0 - warmup a) (req_status req)
                              (duration_since (unwrap_or (first_byte req) now) (start req))
                              (duration_since now (start req))
                              (req_bytes_received req)) s0
                else s0 in
              set_requests_done (S (requests_done s')) s'
            else s0
        | None => s
        end in
      close_if_done a s1
  | Reset _ =>
      close_if_done a (set_requests_done (S (requests_done s)) (set_inflight None s))
  | GoAway => close (true, 256, "goaway"%string) s
  | PriorityUpdate => s
  end.

(** One result of [h3.poll(&mut conn)]. *)
Inductive PollRes :=
| Ev (sid : nat) (ev : Event)
| PollDone
| PollErr (e : string).

(** A poll, with the clock reading and the [recv_body] answers. *)
Record Polled := mkPolled { p_now : Instant; p_body : list nat; p_res : PollRes }.

(** The inner [loop] over [h3.poll]: it stops at [Done] or at another
    error (and, in the model, when the engine's answers run out). *)
Fixpoint drain (a : Args) (polls : list Polled) (s : Pipeline) : Pipeline :=
  match polls with
  | [] => s
  | p :: rest =>
      match p_res p with
      | Ev sid ev => drain a rest (on_event a (p_now p) (p_body p) sid ev s)
      | PollDone => s
      | PollErr _ => s
      end
  end.

(** ** Issuing a request *)

(** Answer of [h3.send_request(&mut conn, &req_headers, true)]. *)
Inductive SendReq := SROk (sid : nat) | SRErr (e : string).

(** [if let Some(h3) = &mut h3_conn { if inflight.is_none() && requests_sent
    < total_requests { ... } }]; [inl] is the error returned by [main]. *)
Definition maybe_issue (a : Args) (h3 : bool) (now : Instant) (sr : SendReq)
    (s : Pipeline) : string + Pipeline :=
  if h3 && match inflight s with None => true | Some _ => false end
        && (requests_sent s <? total_requests a) then
    match sr with
    | SROk sid =>
        inr (set_requests_sent (S (requests_sent s))
               (set_inflight (Some (mkInflight now None 0%N 0 sid)) s))
    | SRErr e => inl ("send_request failed: " ++ e)%string
    end
  else inr s.

(** ** Pipeline traces

    Every pipeline step of a run is either an issue attempt (the engine
    accepting the request on stream [sid]) or a polled event. *)
Inductive Act :=
| AIssue (now : Instant) (sid : nat)
| AEvent (now : Instant) (body : list nat) (sid : nat) (ev : Event).

Definition pstep (a : Args) (s : Pipeline) (x : Act) : Pipeline :=
  match x with
  | AIssue now sid =>
      match maybe_issue a true now (SROk sid) s with inr s' => s' | inl _ => s end
  | AEvent now body sid ev => on_event a now body sid ev s
  end.

Definition prun (a : Args) (s : Pipeline) (xs : list Act) : Pipeline :=
  fold_left (pstep a) xs s.

(** ** Sending packets *)

(** Answer of [socket.send_to(buf, to)]. *)
Inductive SockRes := SockOk | WouldBlock | SockErr (e : string).

(** [fn send_to]: retry on [WouldBlock], return on success or on any other
    error. [None]: the socket answered [WouldBlock] to every attempt the
    oracle lists, so the loop is still spinning. *)
Fixpoint send_to (sock : list SockRes) : option ((string + unit) * list SockRes) :=
  match sock with
  | [] => None
  | SockOk :: r => Some (inr tt, r)
  | WouldBlock :: r => send_to r
  | SockErr e :: r => Some (inl ("send_to failed: " ++ e)%string, r)
  end.

(** Answer of [conn.send(&mut out)]. *)
Inductive SendOut := Packet | SendDone | SendErr (e : string).

Inductive Flushed :=
| FOk (cl : list Close)
| FAbort (msg : string) (cl : list Close)
| FSpin.

(** The [loop { match conn.send(&mut out) { ... } send_to(..)? }] block;
    [cl] are the [conn.close] calls made so far. The engine's answers end
    with [Done] (an exhausted list is read as [Done]). *)
Fixpoint flush (prod : list SendOut) (sock : list SockRes) (cl : list Close) : Flushed :=
  match prod with
  | [] => FOk cl
  | SendDone :: _ => FOk cl
  | SendErr e :: _ => FAbort ("send failed: " ++ e)%string (cl ++ [(false, 1, "fail"%string)])
  | Packet :: rest =>
      match send_to sock with
      | None => FSpin
      | Some (inl m, _) => FAbort m cl
      | Some (inr _, sock') => flush rest sock' cl
      end
  end.

(** ** The main loop *)

(** What the engine, the socket and the clock answer during one iteration
    of [loop { ... }]: whether [conn.is_closed()] holds after the receive
    phase, [conn.is_established()], whether [h3::Connection::with_transport]
    succeeds, the clock when the request is issued, the answer of
    [send_request], the polled events, the answers of [conn.send] and of
    the socket, and [conn.is_closed()] at the end. *)
Record Tick := mkTick {
  t_closed_after_recv : bool;
  t_established : bool;
  t_h3_ok : bool;
  t_now : Instant;
  t_send_req : SendReq;
  t_polls : list Polled;
  t_produce : list SendOut;
  t_sock : list SockRes;
  t_closed_after_send : bool }.

(** Loop state: the pipeline and whether [h3_conn] is [Some]. *)
Record Loop := mkLoop { pl : Pipeline; h3 : bool }.

Inductive Step :=
| Next (l : Loop)
| Break (l : Loop)
| Abort (msg : string) (cl : list Close)
| Spin.

Definition iteration (a : Args) (t : Tick) (l : Loop) : Step :=
  if t_closed_after_recv t then Break l else
  let h3o :=
    if t_established t && negb (h3 l) then
      if t_h3_ok t then Some true else None
    else Some (h3 l) in
  match h3o with
  | None => Abort "failed to create HTTP/3 connection"%string (closes (pl l))
  | Some h3' =>
      match maybe_issue a h3' (t_now t) (t_send_req t) (pl l) with
      | inl m => Abort m (closes (pl l))
      | inr p1 =>
          let p2 := if h3' then drain a (t_polls t) p1 else p1 in
          match flush (t_produce t) (t_sock t) (closes p2) with
          | FSpin => Spin
          | FAbort m cl => Abort m cl
          | FOk cl =>
              let l' := mkLoop (set_closes cl p2) h3' in
              if t_closed_after_send t then Break l' else Next l'
          end
      end
  end.

Inductive RunEnd :=
| Ended (l : Loop)
| Aborted (msg : string) (cl : list Close)
| Spinning
| Running (l : Loop).

(** The loop over the iterations the oracle lists ([Running]: the loop
    has not exited within them). *)
Fixpoint run (a : Args) (ticks : list Tick) (l : Loop) : RunEnd :=
  match ticks with
  | [] => Running l
  | t :: rest =>
      match iteration a t l with
      | Next l' => run a rest l'
      | Break l' => Ended l'
      | Abort m cl => Aborted m cl
      | Spin => Spinning
      end
  end.

(** What [main] prints to stdout: after the loop exits, the CSV header and
    one row per element of [results], in order; when [main] returns an
    error first, nothing. [None] stands for "nothing printed"; [Some rows]
    for the header followed by the rows of [rows]. *)
Definition printed (r : RunEnd) : option (list RequestResult) :=
  match r with
  | Ended l => Some (results (pl l))
  | _ => None
  end.

(** ** The pipeline trace of a run *)

Definition h3_after (t : Tick) (l : Loop) : option bool :=
  if t_established t && negb (h3 l) then
    if t_h3_ok t then Some true else None
  else Some (h3 l).

Definition issue_acts (t : Tick) : list Act :=
  match t_send_req t with SROk sid => [AIssue (t_now t) sid] | SRErr _ => [] end.

(** The events [drain] processes: the polled ones before [Done] or an error. *)
Fixpoint polled_acts (polls : list Polled) : list Act :=
  match polls with
  | [] => []
  | p :: rest =>
      match p_res p with
      | Ev sid ev => AEvent (p_now p) (p_body p) sid ev :: polled_acts rest
      | _ => []
      end
  end.

Definition iter_acts (t : Tick) (l : Loop) : list Act :=
  if t_closed_after_recv t then [] else
  match h3_after t l with
  | Some true => issue_acts t ++ polled_acts (t_polls t)
  | _ => []
  end.

Fixpoint run_acts (a : Args) (ticks : list Tick) (l : Loop) : list Act :=
  match ticks with
  | [] => []
  | t :: rest =>
      match iteration a t l with
      | Next l' => iter_acts t l ++ run_acts a rest l'
      | Break _ => iter_acts t l
      | _ => []
      end
  end.

(** The part of the pipeline state that the pipeline itself reads. *)
Definition core (s : Pipeline) := (inflight s, requests_sent s, requests_done s, results s).

(** Clock readings of a trace. *)
Definition act_time (x : Act) : Instant :=
  match x with AIssue now _ => now | AEvent now _ _ _ => now end.

Fixpoint clock_mono (t0 : Instant) (xs : list Act) : Prop :=
  match xs with
  | [] => True
  | x :: r => t0 <= act_time x /\ clock_mono (act_time x) r
  end.

(** Finished events for the in-flight stream that arrive once the warmup
    requests are done, counted along the trace. *)
Fixpoint measured_finishes (a : Args) (s : Pipeline) (xs : list Act) : nat :=
  match xs with
  | [] => 0
  | x :: r =>
      (match x, inflight s with
       | AEvent _ _ sid Finished, Some req =>
           if (sid =? stream_id req) && (warmup a <=? requests_done s) then 1 else 0
       | _, _ => 0
       end) + measured_finishes a (pstep a s x) r
  end.

(** For each [Finished] for the in-flight stream that arrives once the
    warmup requests are done, completed-count minus warmup at that event,
    in trace order. *)
Fixpoint finish_indices (a : Args) (s : Pipeline) (xs : list Act) : list nat :=
  match xs with
  | [] => []
  | x :: r =>
      (match x, inflight s with
       | AEvent _ _ sid Finished, Some req =>
           if (sid =? stream_id req) && (warmup a <=? requests_done s)
           then [requests_done s - warmup a] else []
       | _, _ => []
       end) ++ finish_indices a (pstep a s x) r
  end.

(** Reset events processed once the warmup requests are done. *)
Fixpoint measured_resets (a : Args) (s : Pipeline) (xs : list Act) : nat :=
  match xs with
  | [] => 0
  | x :: r =>
      (match x with
       | AEvent _ _ _ (Reset _) => if warmup a <=? requests_done s then 1 else 0
       | _ => 0
       end) + measured_resets a (pstep a s x) r
  end.

Fixpoint increasing (l : list nat) : Prop :=
  match l with
  | x :: ((y :: _) as r) => x < y /\ increasing r
  | _ => True
  end.

(** ** General lemmas *)

Lemma core_eq s1 s2 :
  core s1 = core s2 ->
  inflight s1 = inflight s2 /\ requests_sent s1 = requests_sent s2 /\
  requests_done s1 = requests_done s2 /\ results s1 = results s2.
Proof. unfold core; intros H; inversion H; auto. Qed.

Lemma pstep_core a s1 s2 x :
  core s1 = core s2 -> core (pstep a s1 x) = core (pstep a s2 x).
Proof.
  intros H; apply core_eq in H.
  destruct s1, s2; simpl in H; destruct H as (-> & -> & -> & ->).
  destruct x as [now sid | now body sid ev]; simpl.
  - unfold maybe_issue; simpl.
    destruct inflight1, (requests_sent1 <? total_requests a); reflexivity.
  - destruct ev; unfold on_event, close_if_done, close; simpl;
      destruct inflight1 as [req|]; simpl; try reflexivity;
      try destruct (sid =? stream_id req); simpl; try reflexivity;
      try destruct (warmup a <=? requests_done1); simpl;
      try destruct (total_requests a <=? _); reflexivity.
Qed.

Lemma prun_core a xs : forall s1 s2,
  core s1 = core s2 -> core (prun a s1 xs) = core (prun a s2 xs).
Proof.
  induction xs as [|x xs IH]; intros s1 s2 H; simpl; auto.
  apply IH, pstep_core, H.
Qed.

Lemma prun_app a s xs ys : prun a s (xs ++ ys) = prun a (prun a s xs) ys.
Proof. unfold prun; apply fold_left_app. Qed.

Lemma total_requests_le a : total_requests a <= warmup a + requests a.
Proof.
  unfold total_requests.
  pose proof (N.Div0.mod_le (N.of_nat (warmup a) + N.of_nat (requests a)) U32_MOD).
  lia.
Qed.

Lemma total_requests_no_wrap a :
  (N.of_nat (warmup a) + N.of_nat (requests a) < U32_MOD)%N ->
  total_requests a = warmup a + requests a.
Proof.
  intros H; unfold total_requests; rewrite N.mod_small by exact H; lia.
Qed.

Lemma drain_prun a polls : forall s, drain a polls s = prun a s (polled_acts polls).
Proof.
  induction polls as [|p rest IH]; intros s; simpl; auto.
  destruct (p_res p); simpl; auto.
Qed.

Lemma maybe_issue_prun a t s s' :
  maybe_issue a true (t_now t) (t_send_req t) s = inr s' ->
  s' = prun a s (issue_acts t).
Proof.
  unfold issue_acts, prun, maybe_issue; destruct (t_send_req t); simpl.
  - intros H; unfold maybe_issue; simpl; rewrite H; reflexivity.
  - destruct (_ && _); congruence.
Qed.

Lemma maybe_issue_no_h3 a now sr s : maybe_issue a false now sr s = inr s.
Proof. reflexivity. Qed.

Lemma iteration_iter_acts a t l l' :
  iteration a t l = Next l' \/ iteration a t l = Break l' ->
  core (pl l') = core (prun a (pl l) (iter_acts t l)).
Proof.
  unfold iteration, iter_acts; fold (h3_after t l).
  destruct (t_closed_after_recv t).
  { intros [H|H]; inversion H; reflexivity. }
  destruct (h3_after t l) as [[|]|].
  - destruct (maybe_issue a true _ _ _) as [m|p1] eqn:Hi.
    + intros [H|H]; discriminate.
    + apply maybe_issue_prun in Hi; subst p1.
      rewrite drain_prun, <- prun_app.
      destruct (flush _ _ _); try (intros [H|H]; discriminate).
      destruct (t_closed_after_send t); intros [H|H]; inversion H; reflexivity.
  - rewrite maybe_issue_no_h3.
    destruct (flush _ _ _); try (intros [H|H]; discriminate).
    destruct (t_closed_after_send t); intros [H|H]; inversion H; reflexivity.
  - intros [H|H]; discriminate.
Qed.

(** The pipeline state a run ends in is the one its trace leads to. *)
Lemma run_trace a ticks : forall l l',
  run a ticks l = Ended l' ->
  core (pl l') = core (prun a (pl l) (run_acts a ticks l)).
Proof.
  induction ticks as [|t rest IH]; intros l l' H; simpl in *; try discriminate.
  destruct (iteration a t l) as [l1|l1| |] eqn:Hit; try discriminate.
  - rewrite prun_app. rewrite (IH l1 l' H).
    apply prun_core, iteration_iter_acts; auto.
  - inversion H; subst. apply iteration_iter_acts; auto.
Qed.

(** Case analysis on one pipeline step. *)
Ltac step_cases s x :=
  destruct s as [[req|] sent done res cl];
  destruct x as [now sid | now body sid [hl| | |e| |]];
  unfold pstep, maybe_issue, on_event, close_if_done, close, push_result,
    set_requests_done, set_requests_sent, set_inflight in *; simpl in *;
  repeat match goal with
  | |- context [if ?c then _ else _] =>
      lazymatch c with
      | context [if _ then _ else _] => fail
      | _ => destruct c eqn:?
      end
  end; simpl in *.

Lemma pstep_results_length a s x :
  List.length (results (pstep a s x)) =
  List.length (results s) +
  match x, inflight s with
  | AEvent _ _ sid Finished, Some req =>
      if (sid =? stream_id req) && (warmup a <=? requests_done s) then 1 else 0
  | _, _ => 0
  end.
Proof.
  step_cases s x; rewrite ?length_app; simpl; lia.
Qed.

Lemma prun_results_length a xs : forall s,
  List.length (results (prun a s xs)) = List.length (results s) + measured_finishes a s xs.
Proof.
  induction xs as [|x xs IH]; intros s; simpl; [lia|].
  rewrite IH, pstep_results_length. lia.
Qed.

Lemma increasing_snoc l y :
  increasing l -> Forall (fun x => x < y) l -> increasing (l ++ [y]).
Proof.
  induction l as [|x l IH]; intros Hi Hf; simpl; auto.
  inversion Hf as [|? ? Hx Hf']; subst.
  destruct l as [|x' l]; simpl in *; [split; auto|].
  destruct Hi as [Hxx Hi]. split; [exact Hxx|].
  exact (IH Hi Hf').
Qed.

Definition indices_ok (a : Args) (s : Pipeline) : Prop :=
  increasing (map index (results s)) /\
  Forall (fun i => i + warmup a < requests_done s) (map index (results s)).

Lemma pstep_indices_ok a s x : indices_ok a s -> indices_ok a (pstep a s x).
Proof.
  unfold indices_ok.
  step_cases s x; intros [Hi Hf]; rewrite ?map_app; simpl;
    repeat match goal with H : (_ =? _) = true |- _ => apply Nat.eqb_eq in H
                       | H : (_ <=? _) = true |- _ => apply Nat.leb_le in H
                       | H : (_ <=? _) = false |- _ => apply Nat.leb_gt in H end;
    (split; [try apply increasing_snoc; auto|]);
    try (eapply Forall_impl; [|exact Hf]; simpl; intros; lia);
    try (apply Forall_app; split; [eapply Forall_impl; [|exact Hf]; simpl; intros; lia
                                   | constructor; [simpl; lia | constructor]]).
Qed.

Lemma prun_indices_ok a xs : forall s, indices_ok a s -> indices_ok a (prun a s xs).
Proof.
  induction xs as [|x xs IH]; intros s H; simpl; auto.
  apply IH, pstep_indices_ok, H.
Qed.

Lemma pstep_indices a s x :
  map index (results (pstep a s x)) =
  map index (results s) ++
  match x, inflight s with
  | AEvent _ _ sid Finished, Some req =>
      if (sid =? stream_id req) && (warmup a <=? requests_done s)
      then [requests_done s - warmup a] else []
  | _, _ => []
  end.
Proof.
  step_cases s x; try discriminate; rewrite ?map_app, ?app_nil_r; reflexivity.
Qed.

Lemma prun_indices a xs : forall s,
  map index (results (prun a s xs)) = map index (results s) ++ finish_indices a s xs.
Proof.
  induction xs as [|x xs IH]; intros s; simpl; [rewrite app_nil_r; reflexivity|].
  rewrite IH, pstep_indices, <- app_assoc; reflexivity.
Qed.

Lemma pstep_gap_free a s x :
  map index (results s) = seq 0 (requests_done s - warmup a) ->
  match x with
  | AEvent _ _ _ (Reset _) => if warmup a <=? requests_done s then 1 else 0
  | _ => 0
  end = 0 ->
  map index (results (pstep a s x)) = seq 0 (requests_done (pstep a s x) - warmup a).
Proof.
  step_cases s x; intros Hs Hr; rewrite ?map_app; simpl; try discriminate;
    repeat match goal with H : (_ <=? _) = true |- _ => apply Nat.leb_le in H
                       | H : (_ <=? _) = false |- _ => apply Nat.leb_gt in H end;
    try change (match warmup a with 0 => S done | S l => done - l end)
          with (S done - warmup a);
    try (rewrite Hs; replace (S done - warmup a) with (done - warmup a) by lia; reflexivity);
    try (rewrite Hs; replace (S done - warmup a) with (S (done - warmup a)) by lia;
         rewrite seq_S; reflexivity);
    try exact Hs.
Qed.

Lemma prun_gap_free a xs : forall s,
  map index (results s) = seq 0 (requests_done s - warmup a) ->
  measured_resets a s xs = 0 ->
  map index (results (prun a s xs)) = seq 0 (requests_done (prun a s xs) - warmup a).
Proof.
  induction xs as [|x xs IH]; intros s Hs Hr; simpl in *; auto.
  apply IH; [apply pstep_gap_free; [exact Hs|lia] | lia].
Qed.

Lemma read_status_fields req hl :
  first_byte (read_status req hl) = first_byte req /\
  start (read_status req hl) = start req /\
  stream_id (read_status req hl) = stream_id req.
Proof.
  revert req; induction hl as [|[n v] hl IH]; intros req; simpl; auto.
  unfold read_status in *; simpl.
  match goal with |- context [fold_left ?f hl ?r] =>
    destruct (IH r) as (H1 & H2 & H3) end.
  rewrite H1, H2, H3. destruct (String.eqb n ":status"); auto.
Qed.

(** No first-byte reading of the in-flight request lies past [t]. *)
Definition fb_before (t : Instant) (s : Pipeline) : Prop :=
  match inflight s with
  | Some req => match first_byte req with Some fb => fb <= t | None => True end
  | None => True
  end.

Definition rows_ok (s : Pipeline) : Prop :=
  Forall (fun r => ttfb r <= total_time r) (results s).

Lemma pstep_ttfb a s x t :
  t <= act_time x -> fb_before t s -> rows_ok s ->
  fb_before (act_time x) (pstep a s x) /\ rows_ok (pstep a s x).
Proof.
  unfold fb_before, rows_ok.
  step_cases s x; intros Ht Hfb Hrows;
    rewrite ?(proj1 (read_status_fields _ _)); simpl;
    (split; [try lia; auto|]); auto;
    try (apply Forall_app; split; [exact Hrows|]);
    try (constructor; [simpl; unfold duration_since, unwrap_or;
                       destruct (first_byte req); lia | constructor]).
  all: destruct (first_byte req); lia.
Qed.

Lemma prun_ttfb a xs : forall s t,
  clock_mono t xs -> fb_before t s -> rows_ok s -> rows_ok (prun a s xs).
Proof.
  induction xs as [|x xs IH]; intros s t Hm Hfb Hrows; simpl in *; auto.
  destruct Hm as [Ht Hm].
  destruct (pstep_ttfb a s x t Ht Hfb Hrows) as [Hfb' Hrows'].
  exact (IH _ _ Hm Hfb' Hrows').
Qed.

Lemma read_status_status req hl :
  req_status (read_status req hl) =
  fold_left (fun st hdr => if String.eqb (fst hdr) ":status" then parse_status (snd hdr) else st)
            hl (req_status req).
Proof.
  revert req; induction hl as [|[n v] hl IH]; intros req; simpl; auto.
  unfold read_status in *; simpl.
  match goal with |- context [fold_left ?f hl ?r] => rewrite (IH r) end.
  destruct (String.eqb n ":status"); reflexivity.
Qed.

Lemma printed_Some a ticks l rows :
  printed (run a ticks l) = Some rows ->
  exists l', run a ticks l = Ended l' /\ rows = results (pl l').
Proof.
  unfold printed; destruct (run a ticks l); intros H; try discriminate.
  inversion H; eauto.
Qed.

Lemma run_results a ticks rows :
  printed (run a ticks (mkLoop init false)) = Some rows ->
  rows = results (prun a init (run_acts a ticks (mkLoop init false))).
Proof.
  intros H; apply printed_Some in H as (l' & Hr & ->).
  apply run_trace in Hr; apply core_eq in Hr; apply Hr.
Qed.

Lemma prun_sent_le a xs : forall s,
  requests_sent s <= total_requests a -> requests_sent (prun a s xs) <= total_requests a.
Proof.
  induction xs as [|x xs IH]; intros s H; simpl; auto.
  apply IH. step_cases s x;
    repeat match goal with H : (_ <? _) = true |- _ => apply Nat.ltb_lt in H end; lia.
Qed.

Lemma finished_inflight a now body s req :
  inflight s = Some req ->
  requests_done (on_event a now body (stream_id req) Finished s) = S (requests_done s) /\
  inflight (on_event a now body (stream_id req) Finished s) = None /\
  results (on_event a now body (stream_id req) Finished s) =
    results s ++
    (if warmup a <=? requests_done s then
       [mkResult (requests_done s - warmup a) (req_status req)
                 (duration_since (unwrap_or (first_byte req) now) (start req))
                 (duration_since now (start req)) (req_bytes_received req)]
     else []).
Proof.
  destruct s as [inf sent done res cl]; simpl; intros Hin; subst inf.
  unfold on_event, close_if_done, close, push_result, set_requests_done, set_inflight;
    simpl; rewrite Nat.eqb_refl.
  destruct (warmup a <=? done); simpl;
    destruct (total_requests a <=? S done); simpl; rewrite ?app_nil_r; auto.
Qed.

(** ** Concrete runs *)

Definition args_3_0 : Args := mkArgs 3 0.

Definition tick (now sid : nat) (polls : list Polled) (last : bool) : Tick :=
  mkTick false true true now (SROk sid) polls [Packet; SendDone] [SockOk] last.

(** Three requests, no warmup; the second one is reset by the peer. *)
Definition reset_run : list Tick :=
  [ tick 1 0 [mkPolled 2 [] (Ev 0 (Headers [(":status", "200")]%string));
              mkPolled 2 [100] (Ev 0 Data); mkPolled 3 [] (Ev 0 Finished)] false;
    tick 4 4 [mkPolled 5 [] (Ev 4 (Reset 0))] false;
    tick 6 8 [mkPolled 7 [] (Ev 8 (Headers [(":status", "200")]%string));
              mkPolled 8 [300] (Ev 8 Data); mkPolled 9 [] (Ev 8 Finished)] true ].

(** The in-flight request on stream 0, issued at time 10. *)
Definition stream0_state : Pipeline := mkPipeline (Some (mkInflight 10 None 0%N 0 0)) 1 0 [] [].

(** Two header blocks for the in-flight stream (a response, then trailers). *)
Definition headers_twice : list Act :=
  [ AIssue 1 0;
    AEvent 2 [] 0 (Headers [(":status", "200")]%string);
    AEvent 5 [] 0 (Headers [("x-checksum", "abc")]%string) ].

Example parse_status_examples :
  map parse_status ["200"; "+200"; "abc"; "70000"; "-1"; "+"; ""]%string
  = [200; 200; 0; 0; 0; 0; 0]%N.
Proof. vm_compute. reflexivity. Qed.

(** ** Claims *)

(** C1 (code_bug). An event for a stream other than the in-flight one
    should leave the pipeline unchanged. The [Finished] arm calls
    [inflight.take()] before comparing stream ids, and the [Reset] arm
    ignores the stream id: with stream 0 in flight, a [Finished] for
    stream 4 drops the in-flight request, and a [Reset] for stream 4 drops
    it and counts a completed request. *)
Theorem C1_other_stream_finished_reset_clear_inflight :
  on_event args_3_0 20 [] 4 Finished stream0_state = mkPipeline None 1 0 [] [] /\
  on_event args_3_0 20 [] 4 (Reset 0) stream0_state = mkPipeline None 1 1 [] [].
Proof. split; reflexivity. Qed.

(** C2 (counterexample). With warmup 0 and three requests whose second is
    reset, the run prints two rows, with indices 0 and 2, not 0 and 1. *)
Lemma C2_reset_leaves_index_gap :
  exists rows,
    printed (run args_3_0 reset_run (mkLoop init false)) = Some rows /\
    map index rows = [0; 2] /\
    map index rows <> seq 0 (List.length rows).
Proof.
  eexists; split; [vm_compute; reflexivity|].
  split; [reflexivity|]. vm_compute. discriminate.
Qed.

(** C2 (amended). The printed indices are, in completion order, the values
    completed-count minus warmup at the [Finished] events that produced the
    rows; they are strictly increasing, and they are exactly [0 .. rows-1]
    whenever no [Reset] is processed once the warmup requests have
    completed. *)
Theorem C2_indices_increasing_and_gap_free a ticks rows :
  printed (run a ticks (mkLoop init false)) = Some rows ->
  map index rows = finish_indices a init (run_acts a ticks (mkLoop init false)) /\
  increasing (map index rows) /\
  (measured_resets a init (run_acts a ticks (mkLoop init false)) = 0 ->
   map index rows = seq 0 (List.length rows)).
Proof.
  intros H; apply run_results in H; subst rows.
  split; [|split].
  - rewrite prun_indices; reflexivity.
  - apply prun_indices_ok. split; simpl; auto.
  - intros Hr.
    pose proof (prun_gap_free a (run_acts a ticks (mkLoop init false)) init
                  eq_refl Hr) as Hg.
    rewrite Hg, <- (length_map index), Hg, length_seq. reflexivity.
Qed.

Lemma C2_indices_increasing_and_gap_free_witness :
  printed (run args_3_0 reset_run (mkLoop init false)) = Some
    (results (prun args_3_0 init (run_acts args_3_0 reset_run (mkLoop init false)))) /\
  increasing (map index (results (prun args_3_0 init
                                     (run_acts args_3_0 reset_run (mkLoop init false))))).
Proof.
  split; [vm_compute; reflexivity|].
  apply (C2_indices_increasing_and_gap_free args_3_0 reset_run).
  vm_compute; reflexivity.
Defined.

(** C3. The number of printed rows is the number of [Finished] events for
    the in-flight stream that arrive when completed-count is at least the
    warmup count; such a [Finished] increments completed-count, clears the
    in-flight request, and appends a result exactly when completed-count is
    at least the warmup count, with index completed-count minus warmup. *)
Theorem C3_rows_are_measured_finishes :
  (forall a ticks rows,
     printed (run a ticks (mkLoop init false)) = Some rows ->
     List.length rows = measured_finishes a init (run_acts a ticks (mkLoop init false))) /\
  (forall a now body s req,
     inflight s = Some req ->
     requests_done (on_event a now body (stream_id req) Finished s) = S (requests_done s) /\
     inflight (on_event a now body (stream_id req) Finished s) = None /\
     results (on_event a now body (stream_id req) Finished s) =
       results s ++
       (if warmup a <=? requests_done s then
          [mkResult (requests_done s - warmup a) (req_status req)
                    (duration_since (unwrap_or (first_byte req) now) (start req))
                    (duration_since now (start req)) (req_bytes_received req)]
        else [])).
Proof.
  split.
  - intros a ticks rows H; apply run_results in H; subst rows.
    rewrite prun_results_length; reflexivity.
  - exact finished_inflight.
Qed.

Lemma C3_rows_are_measured_finishes_witness :
  printed (run args_3_0 reset_run (mkLoop init false)) = Some
    (results (prun args_3_0 init (run_acts args_3_0 reset_run (mkLoop init false)))) /\
  List.length (results (prun args_3_0 init (run_acts args_3_0 reset_run (mkLoop init false))))
    = measured_finishes args_3_0 init (run_acts args_3_0 reset_run (mkLoop init false)) /\
  requests_done (on_event args_3_0 20 [] 0 Finished stream0_state) = 1.
Proof.
  split; [vm_compute; reflexivity|split].
  - apply (proj1 C3_rows_are_measured_finishes args_3_0 reset_run).
    vm_compute; reflexivity.
  - apply (proj2 C3_rows_are_measured_finishes args_3_0 20 [] stream0_state
             (mkInflight 10 None 0%N 0 0)).
    reflexivity.
Defined.

(** C4 (code_bug). The first-byte timestamp should be set only when unset,
    but the [Headers] arm assigns [Some(Instant::now())] on every header
    block for the in-flight stream: a second block (e.g. trailers) at time
    5 replaces the reading 2 of the first. *)
Theorem C4_second_headers_overwrite_first_byte :
  option_map first_byte (inflight (prun args_3_0 init (firstn 2 headers_twice)))
    = Some (Some 2) /\
  option_map first_byte (inflight (prun args_3_0 init headers_twice)) = Some (Some 5).
Proof. split; vm_compute; reflexivity. Qed.

(** C5. A request is issued only when [h3_conn] exists, nothing is in
    flight and fewer than [warmup + requests] have been issued; otherwise
    the issue step changes nothing. Events never issue a request, never
    fill the in-flight slot, and empty it only on [Finished] or [Reset].
    Along any trace, the issued count stays within [warmup + requests]. *)
Theorem C5_single_inflight :
  (forall a h3 now sr s s',
     maybe_issue a h3 now sr s = inr s' ->
     requests_sent s' <> requests_sent s ->
     h3 = true /\ inflight s = None /\ requests_sent s < total_requests a /\
     requests_sent s' = S (requests_sent s) /\ inflight s' <> None) /\
  (forall a h3 now sr s s',
     maybe_issue a h3 now sr s = inr s' ->
     requests_sent s' = requests_sent s -> s' = s) /\
  (forall a now body sid ev s,
     requests_sent (on_event a now body sid ev s) = requests_sent s /\
     (inflight s = None -> inflight (on_event a now body sid ev s) = None) /\
     (inflight s <> None -> inflight (on_event a now body sid ev s) = None ->
      ev = Finished \/ exists e, ev = Reset e)) /\
  (forall a xs, requests_sent (prun a init xs) <= total_requests a).
Proof.
  split; [|split; [|split]].
  - intros a h3 now sr [[req|] sent done res cl] s'; unfold maybe_issue; simpl;
      [rewrite andb_false_r; simpl; intros H; inversion H; subst; simpl; congruence|].
    destruct h3; simpl; [|intros H; inversion H; subst; simpl; congruence].
    destruct (sent <? total_requests a) eqn:Hlt; simpl;
      [|intros H; inversion H; subst; simpl; congruence].
    apply Nat.ltb_lt in Hlt.
    destruct sr; intros H; inversion H; subst; simpl; intros _.
    repeat split; auto; discriminate.
  - intros a h3 now sr [[req|] sent done res cl] s'; unfold maybe_issue; simpl;
      [rewrite andb_false_r; simpl; intros H; inversion H; auto|].
    destruct h3, (sent <? total_requests a); simpl;
      try (intros H; inversion H; auto; fail).
    destruct sr; intros H; inversion H; subst; simpl; intros; lia.
  - intros a now body sid ev [[req|] sent done res cl];
      destruct ev; unfold on_event, close_if_done, close, push_result,
        set_requests_done, set_inflight; simpl;
      repeat match goal with
      | |- context [if ?c then _ else _] =>
          lazymatch c with
          | context [if _ then _ else _] => fail
          | _ => destruct c
          end
      end; simpl; repeat split; intros; try congruence; eauto.
  - intros a xs; apply prun_sent_le; simpl; lia.
Qed.

Lemma C5_single_inflight_witness :
  maybe_issue args_3_0 true 1 (SROk 0) init
    = inr (mkPipeline (Some (mkInflight 1 None 0%N 0 0)) 1 0 [] []) /\
  inflight init = None.
Proof.
  split; [reflexivity|].
  apply (proj1 C5_single_inflight args_3_0 true 1 (SROk 0) init
           (mkPipeline (Some (mkInflight 1 None 0%N 0 0)) 1 0 [] []));
    [reflexivity | simpl; discriminate].
Defined.

(** C6. With a clock that never goes back, every printed row has
    [ttfb <= total_time]; a [Finished] for the in-flight stream after the
    warmup appends a row whose ttfb is the first-byte reading (or, when
    there is none, the completion time) minus the issue time, so that
    without a first-byte reading ttfb equals total_time. *)
Theorem C6_ttfb_le_total_time :
  (forall a ticks rows,
     printed (run a ticks (mkLoop init false)) = Some rows ->
     clock_mono 0 (run_acts a ticks (mkLoop init false)) ->
     Forall (fun r => ttfb r <= total_time r) rows) /\
  (forall a now body s req,
     inflight s = Some req -> warmup a <= requests_done s ->
     exists r,
       results (on_event a now body (stream_id req) Finished s) = results s ++ [r] /\
       ttfb r = duration_since (unwrap_or (first_byte req) now) (start req) /\
       total_time r = duration_since now (start req) /\
       (first_byte req = None -> ttfb r = total_time r)).
Proof.
  split.
  - intros a ticks rows H Hm; apply run_results in H; subst rows.
    apply (prun_ttfb a _ init 0 Hm); [exact I | apply Forall_nil].
  - intros a now body s req Hin Hw.
    destruct (finished_inflight a now body s req Hin) as (_ & _ & Hr).
    apply Nat.leb_le in Hw; rewrite Hw in Hr.
    eexists; split; [exact Hr|]; simpl.
    repeat split; intros Hfb; rewrite Hfb; reflexivity.
Qed.

Lemma C6_ttfb_le_total_time_witness :
  printed (run args_3_0 reset_run (mkLoop init false)) = Some
    (results (prun args_3_0 init (run_acts args_3_0 reset_run (mkLoop init false)))) /\
  clock_mono 0 (run_acts args_3_0 reset_run (mkLoop init false)) /\
  Forall (fun r => ttfb r <= total_time r)
    (results (prun args_3_0 init (run_acts args_3_0 reset_run (mkLoop init false)))).
Proof.
  assert (Hp : printed (run args_3_0 reset_run (mkLoop init false)) = Some
    (results (prun args_3_0 init (run_acts args_3_0 reset_run (mkLoop init false)))))
    by (vm_compute; reflexivity).
  assert (Hm : clock_mono 0 (run_acts args_3_0 reset_run (mkLoop init false)))
    by (vm_compute; repeat split; lia).
  split; [exact Hp|split; [exact Hm|]].
  exact (proj1 C6_ttfb_le_total_time args_3_0 reset_run _ Hp Hm).
Defined.

(** C7. A [Reset] for the in-flight stream clears the in-flight request,
    adds no result (so no row), increments completed-count, and asks for
    a graceful close ([0x100], "done") exactly when completed-count reaches
    the u32 total [warmup + requests]; in particular it asks for the close
    whenever completed-count reaches [warmup + requests]. The log line is
    not modelled. *)
Theorem C7_reset_clears_without_row a now body s req e :
  inflight s = Some req ->
  inflight (on_event a now body (stream_id req) (Reset e) s) = None /\
  results (on_event a now body (stream_id req) (Reset e) s) = results s /\
  requests_done (on_event a now body (stream_id req) (Reset e) s) = S (requests_done s) /\
  requests_sent (on_event a now body (stream_id req) (Reset e) s) = requests_sent s /\
  closes (on_event a now body (stream_id req) (Reset e) s) =
    closes s ++ (if total_requests a <=? S (requests_done s)
                 then [(true, 256, "done"%string)] else []) /\
  (warmup a + requests a <= S (requests_done s) ->
   closes (on_event a now body (stream_id req) (Reset e) s) =
   closes s ++ [(true, 256, "done"%string)]).
Proof.
  intros _. destruct s as [inf sent done res cl].
  unfold on_event, close_if_done, close, set_requests_done, set_inflight; simpl.
  pose proof (total_requests_le a) as Hle.
  destruct (total_requests a <=? S done) eqn:Ht; simpl; rewrite ?app_nil_r;
    repeat split; auto.
  intros H; apply Nat.leb_gt in Ht; lia.
Qed.

Lemma C7_reset_clears_without_row_witness :
  inflight stream0_state = Some (mkInflight 10 None 0%N 0 0) /\
  results (on_event args_3_0 20 [] 0 (Reset 0) stream0_state) = [].
Proof.
  split; [reflexivity|].
  exact (proj1 (proj2 (C7_reset_clears_without_row args_3_0 20 [] stream0_state
                         (mkInflight 10 None 0%N 0 0) 0 eq_refl))).
Defined.

(** C8 (counterexample). A real error from the socket during the flush
    aborts the run without any [conn.close] call: [send_to(..)?] returns
    at once, and only an error of [conn.send] closes the connection. *)
Lemma C8_socket_error_aborts_without_close :
  flush [Packet; SendDone] [WouldBlock; SockErr "EPERM"] []
    = FAbort "send_to failed: EPERM" [] /\
  iteration args_3_0 (mkTick false true true 1 (SROk 0) [] [Packet; SendDone]
                        [WouldBlock; SockErr "EPERM"] false) (mkLoop init false)
    = Abort "send_to failed: EPERM" [].
Proof. split; reflexivity. Qed.

(** C8 (amended). The flush sends packets until [conn.send] reports [Done];
    the socket is retried while it answers [WouldBlock]; an error of
    [conn.send] makes an immediate close ([false], [0x1], "fail") and aborts
    the run; a real socket error aborts it without a close; a successful
    flush closes nothing; and a run whose iteration aborts prints nothing. *)
Theorem C8_flush_errors_abort :
  (forall k r, send_to (repeat WouldBlock k ++ SockOk :: r) = Some (inr tt, r)) /\
  (forall k e r, send_to (repeat WouldBlock k ++ SockErr e :: r)
                 = Some (inl ("send_to failed: " ++ e)%string, r)) /\
  (forall sock cl, flush (SendDone :: []) sock cl = FOk cl) /\
  (forall rest sock sock' cl,
     send_to sock = Some (inr tt, sock') ->
     flush (Packet :: rest) sock cl = flush rest sock' cl) /\
  (forall e rest sock cl,
     flush (SendErr e :: rest) sock cl
     = FAbort ("send failed: " ++ e)%string (cl ++ [(false, 1, "fail"%string)])) /\
  (forall rest sock sock' m cl,
     send_to sock = Some (inl m, sock') -> flush (Packet :: rest) sock cl = FAbort m cl) /\
  (forall prod sock cl cl', flush prod sock cl = FOk cl' -> cl' = cl) /\
  (forall a t rest l m cl,
     iteration a t l = Abort m cl -> printed (run a (t :: rest) l) = None).
Proof.
  split; [|split; [|split; [|split; [|split; [|split; [|split]]]]]].
  - induction k as [|k IH]; intros r; simpl; auto.
  - induction k as [|k IH]; intros e r; simpl; auto.
  - reflexivity.
  - intros rest sock sock' cl H; simpl; rewrite H; reflexivity.
  - reflexivity.
  - intros rest sock sock' m cl H; simpl; rewrite H; reflexivity.
  - induction prod as [|p prod IH]; intros sock cl cl' H; simpl in H;
      [inversion H; auto|].
    destruct p; try (inversion H; auto; fail).
    destruct (send_to sock) as [[[m|[]] sock']|]; try discriminate.
    exact (IH _ _ _ H).
  - intros a t rest l m cl H; simpl; rewrite H; reflexivity.
Qed.

Lemma C8_flush_errors_abort_witness :
  send_to [WouldBlock; SockOk] = Some (inr tt, []) /\
  flush [Packet; SendDone] [SockOk] [] = flush [SendDone] [] [] /\
  printed (run args_3_0 [mkTick false true true 1 (SROk 0) [] [SendErr "x"] [] false]
                 (mkLoop init false)) = None.
Proof.
  split; [exact (proj1 C8_flush_errors_abort 1 [])|split].
  - exact (proj1 (proj2 (proj2 (proj2 C8_flush_errors_abort)))
             [SendDone] [SockOk] [] [] eq_refl).
  - apply (proj2 (proj2 (proj2 (proj2 (proj2 (proj2 (proj2 C8_flush_errors_abort)))))))
      with (m := "send failed: x"%string) (cl := [(false, 1, "fail"%string)]).
    reflexivity.
Defined.

(** C9. On a [Headers] event for the in-flight stream, every [:status]
    header of the block sets the status to its parsed value, which is 0
    when the value is not UTF-8 or does not parse as a u16; a freshly
    issued request has status 0. *)
Theorem C9_status_parsed_default_zero :
  (forall a now body s req hl,
     inflight s = Some req ->
     option_map req_status (inflight (on_event a now body (stream_id req) (Headers hl) s))
     = Some (fold_left (fun st hdr => if String.eqb (fst hdr) ":status"
                                      then parse_status (snd hdr) else st)
                       hl (req_status req))) /\
  (forall v,
     parse_status v =
     match from_utf8 v with
     | Some v' => match parse_u16 v' with Some n => n | None => 0%N end
     | None => 0%N
     end) /\
  (forall a now sid s s',
     maybe_issue a true now (SROk sid) s = inr s' ->
     requests_sent s' = S (requests_sent s) ->
     option_map req_status (inflight s') = Some 0%N).
Proof.
  split; [|split].
  - intros a now body [inf sent done res cl] req hl Hin; simpl in Hin; subst inf.
    unfold on_event, set_inflight; simpl; rewrite Nat.eqb_refl; simpl.
    rewrite read_status_status; reflexivity.
  - intros v; unfold parse_status; destruct (from_utf8 v); simpl; auto.
  - intros a now sid [[req|] sent done res cl] s'; unfold maybe_issue; simpl;
      [intros H; inversion H; subst; simpl; lia|].
    destruct (sent <? total_requests a); simpl; intros H; inversion H; subst;
      simpl; [reflexivity | lia].
Qed.

Lemma C9_status_parsed_default_zero_witness :
  option_map req_status
    (inflight (on_event args_3_0 20 [] 0 (Headers [(":status", "abc")]%string) stream0_state))
  = Some 0%N /\
  option_map req_status
    (inflight (on_event args_3_0 20 [] 0 (Headers [(":status", "204")]%string) stream0_state))
  = Some 204%N.
Proof.
  split.
  - rewrite (proj1 C9_status_parsed_default_zero args_3_0 20 [] stream0_state
               (mkInflight 10 None 0%N 0 0) _ eq_refl).
    vm_compute; reflexivity.
  - rewrite (proj1 C9_status_parsed_default_zero args_3_0 20 [] stream0_state
               (mkInflight 10 None 0%N 0 0) _ eq_refl).
    vm_compute; reflexivity.
Defined.

(** C10. If [send_request] fails when a request is due (an HTTP/3
    connection exists after this iteration's creation step, whether it
    was created earlier or in this very iteration, nothing is in flight
    and fewer than the total were sent), the iteration returns the error
    from [main] at once: the run aborts and prints no CSV. *)
Theorem C10_send_request_error_aborts a t rest l e :
  t_closed_after_recv t = false ->
  h3_after t l = Some true ->
  inflight (pl l) = None ->
  requests_sent (pl l) < total_requests a ->
  t_send_req t = SRErr e ->
  run a (t :: rest) l = Aborted ("send_request failed: " ++ e)%string (closes (pl l)) /\
  printed (run a (t :: rest) l) = None.
Proof.
  intros Hc Hh Hi Hs He.
  assert (Hr : run a (t :: rest) l
               = Aborted ("send_request failed: " ++ e)%string (closes (pl l))).
  { simpl; unfold iteration; rewrite Hc; fold (h3_after t l); rewrite Hh.
    unfold maybe_issue; rewrite Hi, He; apply Nat.ltb_lt in Hs; rewrite Hs; reflexivity. }
  split; [exact Hr|rewrite Hr; reflexivity].
Qed.

Lemma C10_send_request_error_aborts_witness :
  run args_3_0 [mkTick false true true 1 (SRErr "StreamBlocked") [] [] [] false]
      (mkLoop init false)
  = Aborted "send_request failed: StreamBlocked" [] /\
  printed (run args_3_0 [mkTick false true true 1 (SRErr "StreamBlocked") [] [] [] false]
               (mkLoop init false)) = None.
Proof.
  apply (C10_send_request_error_aborts args_3_0
           (mkTick false true true 1 (SRErr "StreamBlocked") [] [] [] false) []
           (mkLoop init false) "StreamBlocked");
    [reflexivity|reflexivity|reflexivity|vm_compute; lia|reflexivity].
Defined.

(** ** Further properties of the client *)

(** The value of the last [:status] header of a header block, if any. *)
Fixpoint last_status (hl : list (string * string)) : option string :=
  match hl with
  | [] => None
  | (n, v) :: r =>
      match last_status r with
      | Some v' => Some v'
      | None => if String.eqb n ":status" then Some v else None
      end
  end.

Definition is_digit (b : nat) : Prop := in_range 48 57 b = true.

Lemma parse_digits_digits acc bs n :
  parse_digits acc bs = Some n -> Forall is_digit bs.
Proof.
  revert acc; induction bs as [|b bs IH]; intros acc H; simpl in H; auto.
  destruct (in_range 48 57 b) eqn:Hd; [|discriminate].
  destruct (_ <=? U16_MAX)%N; [|discriminate].
  constructor; [exact Hd | exact (IH _ H)].
Qed.

Lemma parse_u16_shape v n :
  parse_u16 v = Some n ->
  exists ds, ds <> [] /\ Forall is_digit ds /\ (bytes_of v = ds \/ bytes_of v = 43 :: ds).
Proof.
  unfold parse_u16; destruct (bytes_of v) as [|b [|b' r]]; try discriminate.
  - destruct (_ || _); [discriminate|]. intros H.
    exists [b]; split; [discriminate|split; [exact (parse_digits_digits _ _ _ H)|auto]].
  - destruct (b =? 43) eqn:Hb; intros H.
    + apply Nat.eqb_eq in Hb; subst b.
      exists (b' :: r); split; [discriminate|split; [exact (parse_digits_digits _ _ _ H)|auto]].
    + exists (b :: b' :: r); split; [discriminate|split; [exact (parse_digits_digits _ _ _ H)|auto]].
Qed.

(** X1. A [Data] event for the in-flight stream adds every chunk that
    [recv_body] returns to the byte count and changes nothing else. *)
Theorem X1_data_adds_all_chunks a now body s req :
  inflight s = Some req ->
  on_event a now body (stream_id req) Data s =
  set_inflight (Some (mkInflight (start req) (first_byte req) (req_status req)
                                 (req_bytes_received req + list_sum body) (stream_id req))) s.
Proof.
  intros Hin; unfold on_event; rewrite Hin, Nat.eqb_refl; unfold add_body.
  do 3 f_equal.
  rewrite fold_symmetric by (intros; lia).
  rewrite <- (Nat.add_0_r (req_bytes_received req)) at 2.
  generalize (req_bytes_received req); induction body as [|c body IH]; intros n; simpl; [lia|].
  rewrite IH. lia.
Qed.

Lemma X1_data_adds_all_chunks_witness :
  inflight stream0_state = Some (mkInflight 10 None 0%N 0 0) /\
  on_event args_3_0 20 [1200; 300] 0 Data stream0_state =
  set_inflight (Some (mkInflight 10 None 0%N (0 + list_sum [1200; 300]) 0)) stream0_state.
Proof.
  split; [reflexivity|].
  exact (X1_data_adds_all_chunks args_3_0 20 [1200; 300] stream0_state
           (mkInflight 10 None 0%N 0 0) eq_refl).
Defined.

Lemma fold_status_last hl : forall st,
  fold_left (fun st hdr => if String.eqb (fst hdr) ":status" then parse_status (snd hdr) else st)
            hl st =
  match last_status hl with Some v => parse_status v | None => st end.
Proof.
  induction hl as [|[n v] hl IH]; intros st; simpl; auto.
  rewrite IH. destruct (last_status hl); auto.
  destruct (String.eqb n ":status"); reflexivity.
Qed.

(** X3. After a [Headers] event for the in-flight stream, the status is
    the parsed value of the block's last [:status] header; a block with no
    [:status] header leaves the status as it was. *)
Theorem X3_last_status_header_wins a now body s req hl :
  inflight s = Some req ->
  option_map req_status (inflight (on_event a now body (stream_id req) (Headers hl) s)) =
  Some (match last_status hl with Some v => parse_status v | None => req_status req end).
Proof.
  intros Hin; unfold on_event; rewrite Hin, Nat.eqb_refl; simpl.
  rewrite read_status_status, fold_status_last; reflexivity.
Qed.

Lemma X3_last_status_header_wins_witness :
  option_map req_status
    (inflight (on_event args_3_0 20 [] 0
                 (Headers [(":status", "103"); ("link", "x"); (":status", "200")]%string)
                 stream0_state)) = Some 200%N.
Proof.
  rewrite (X3_last_status_header_wins args_3_0 20 [] stream0_state
             (mkInflight 10 None 0%N 0 0) _ eq_refl).
  vm_compute; reflexivity.
Defined.

(** X5. A non-zero status comes only from a value made of one or more
    ASCII digits, optionally preceded by [+]. *)
Theorem X5_nonzero_status_is_digits v :
  parse_status v <> 0%N ->
  exists ds, ds <> [] /\ Forall is_digit ds /\ (bytes_of v = ds \/ bytes_of v = 43 :: ds).
Proof.
  unfold parse_status, from_utf8, unwrap_or.
  destruct (utf8_valid (bytes_of v)).
  - destruct (parse_u16 v) as [n|] eqn:H; [intros _; exact (parse_u16_shape _ _ H)|].
    intros Hn; exfalso; apply Hn; reflexivity.
  - intros Hn; exfalso; apply Hn; reflexivity.
Qed.

Lemma X5_nonzero_status_is_digits_witness :
  parse_status "+204"%string <> 0%N /\
  exists ds, ds <> [] /\ Forall is_digit ds /\
    (bytes_of "+204"%string = ds \/ bytes_of "+204"%string = 43 :: ds).
Proof.
  assert (H : parse_status "+204"%string <> 0%N) by (vm_compute; discriminate).
  split; [exact H | exact (X5_nonzero_status_is_digits _ H)].
Defined.

(** X6. Draining stops at the first [Done] or error from [h3.poll]:
    events the engine would report after it are not processed in this
    pass. *)
Theorem X6_drain_stops_at_done_or_error a pre p post s :
  Forall (fun q => exists sid ev, p_res q = Ev sid ev) pre ->
  (p_res p = PollDone \/ exists e, p_res p = PollErr e) ->
  drain a (pre ++ p :: post) s = drain a pre s.
Proof.
  intros Hpre Hp; revert s; induction Hpre as [|q pre [sid [ev Hq]] _ IH]; intros s; simpl.
  - destruct Hp as [Hp|[e Hp]]; rewrite Hp; reflexivity.
  - rewrite Hq; apply IH.
Qed.

Lemma X6_drain_stops_at_done_or_error_witness :
  drain args_3_0 ([mkPolled 11 [] (Ev 0 Finished)] ++ mkPolled 12 [] PollDone
                  :: [mkPolled 13 [] (Ev 4 (Reset 0))]) stream0_state
  = drain args_3_0 [mkPolled 11 [] (Ev 0 Finished)] stream0_state.
Proof.
  apply X6_drain_stops_at_done_or_error.
  - constructor; [exists 0, Finished; reflexivity | constructor].
  - left; reflexivity.
Defined.

(** X7. Results and [conn.close] calls are only ever appended: every
    trace extends the result list and the close list of the state it
    starts from, leaving what is there untouched. *)
Theorem X7_results_append_only a xs : forall s,
  (exists rs, results (prun a s xs) = results s ++ rs) /\
  (exists cs, closes (prun a s xs) = closes s ++ cs).
Proof.
  induction xs as [|x xs IH]; intros s; simpl.
  - split; exists []; rewrite app_nil_r; reflexivity.
  - destruct (IH (pstep a s x)) as [[rs Hr] [cs Hc]].
    rewrite Hr, Hc.
    assert (Hs : (exists rs1, results (pstep a s x) = results s ++ rs1) /\
                 (exists cs1, closes (pstep a s x) = closes s ++ cs1)).
    { step_cases s x;
        split; first [exists []; rewrite app_nil_r; reflexivity
                     | eexists; rewrite <- app_assoc; reflexivity
                     | eexists; reflexivity]. }
    destruct Hs as [[rs1 Hr1] [cs1 Hc1]]; rewrite Hr1, Hc1.
    split; eexists; rewrite <- app_assoc; reflexivity.
Qed.

Definition slot (s : Pipeline) : nat :=
  match inflight s with Some _ => 1 | None => 0 end.

Lemma pstep_rows_le_sent a s x :
  List.length (results s) + slot s <= requests_sent s ->
  List.length (results (pstep a s x)) + slot (pstep a s x) <= requests_sent (pstep a s x).
Proof.
  unfold slot; step_cases s x; try discriminate; rewrite ?length_app; simpl; lia.
Qed.

Lemma prun_rows_le_sent a xs : forall s,
  List.length (results s) + slot s <= requests_sent s ->
  List.length (results (prun a s xs)) + slot (prun a s xs) <= requests_sent (prun a s xs).
Proof.
  induction xs as [|x xs IH]; intros s H; simpl; auto.
  apply IH, pstep_rows_le_sent, H.
Qed.

(** X8. A run that prints rows ends in a loop state whose row count is at
    most its issued-count [requests_sent], which is at most the u32 total
    [warmup + requests] (computed modulo 2^32), itself at most the
    mathematical sum [warmup + requests]. *)
Theorem X8_rows_bounded_by_total a ticks rows :
  printed (run a ticks (mkLoop init false)) = Some rows ->
  exists l', run a ticks (mkLoop init false) = Ended l' /\
    rows = results (pl l') /\
    List.length rows <= requests_sent (pl l') /\
    requests_sent (pl l') <= total_requests a /\
    total_requests a <= warmup a + requests a.
Proof.
  intros H; apply printed_Some in H as (l' & Hr & ->).
  exists l'; split; [exact Hr|split; [reflexivity|]].
  pose proof (core_eq _ _ (run_trace a ticks _ _ Hr)) as (_ & Hs & _ & Hres).
  rewrite Hs, Hres; simpl pl.
  pose proof (prun_rows_le_sent a (run_acts a ticks (mkLoop init false)) init
                ltac:(unfold init, slot; simpl; lia)) as H1.
  pose proof (prun_sent_le a (run_acts a ticks (mkLoop init false)) init
                ltac:(unfold init, slot; simpl; lia)) as H2.
  pose proof (total_requests_le a).
  repeat split; lia.
Qed.

Lemma X8_rows_bounded_by_total_witness :
  printed (run args_3_0 reset_run (mkLoop init false)) = Some
    (results (prun args_3_0 init (run_acts args_3_0 reset_run (mkLoop init false)))) /\
  exists l', run args_3_0 reset_run (mkLoop init false) = Ended l' /\
    results (prun args_3_0 init (run_acts args_3_0 reset_run (mkLoop init false)))
      = results (pl l') /\
    List.length (results (prun args_3_0 init (run_acts args_3_0 reset_run (mkLoop init false))))
      <= requests_sent (pl l') /\
    requests_sent (pl l') <= total_requests args_3_0 /\
    total_requests args_3_0 <= warmup args_3_0 + requests args_3_0.
Proof.
  assert (Hp : printed (run args_3_0 reset_run (mkLoop init false)) = Some
    (results (prun args_3_0 init (run_acts args_3_0 reset_run (mkLoop init false)))))
    by (vm_compute; reflexivity).
  split; [exact Hp | exact (X8_rows_bounded_by_total _ _ _ Hp)].
Defined.

(** ** A run in which every request succeeds *)

(** Request [k] of such a run: issued at [3k] on stream [4k]; its response
    headers ([:status 200]) and its body of [b] bytes at [3k+1]; its end at
    [3k+2]. *)
Definition ok_request (b k : nat) : list Act :=
  [ AIssue (3 * k) (4 * k);
    AEvent (3 * k + 1) [] (4 * k) (Headers [(":status", "200")]%string);
    AEvent (3 * k + 1) [b] (4 * k) Data;
    AEvent (3 * k + 2) [] (4 * k) Finished ].

Fixpoint ok_requests (b n : nat) : list Act :=
  match n with
  | 0 => []
  | S n => ok_requests b n ++ ok_request b n
  end.

Definition ok_rows (b m : nat) : list RequestResult :=
  map (fun j => mkResult j 200%N 1 2 b) (seq 0 m).

Lemma ok_request_step a b k :
  k < total_requests a ->
  prun a (mkPipeline None k k (ok_rows b (k - warmup a)) []) (ok_request b k) =
  mkPipeline None (S k) (S k) (ok_rows b (S k - warmup a))
    (if total_requests a <=? S k then [(true, 256, "done"%string)] else []).
Proof.
  intros Hk. apply Nat.ltb_lt in Hk.
  destruct (warmup a <=? k) eqn:Hw.
  - assert (Hrows : ok_rows b (S k - warmup a) =
                    ok_rows b (k - warmup a) ++ [mkResult (k - warmup a) 200%N 1 2 b]).
    { apply Nat.leb_le in Hw.
      replace (S k - warmup a) with (S (k - warmup a)) by lia.
      unfold ok_rows; rewrite seq_S, map_app; reflexivity. }
    rewrite Hrows.
    unfold prun, ok_request, pstep, maybe_issue; simpl fold_left; rewrite Hk.
    unfold on_event, close_if_done, close, push_result, set_requests_done,
      set_inflight, set_requests_sent;
      repeat progress (simpl; rewrite ?Nat.eqb_refl, ?Hw).
    destruct (total_requests a <=? S k); repeat f_equal; unfold duration_since; lia.
  - assert (Hrows : ok_rows b (S k - warmup a) = ok_rows b (k - warmup a)).
    { apply Nat.leb_gt in Hw.
      replace (S k - warmup a) with 0 by lia. replace (k - warmup a) with 0 by lia.
      reflexivity. }
    rewrite Hrows.
    unfold prun, ok_request, pstep, maybe_issue; simpl fold_left; rewrite Hk.
    unfold on_event, close_if_done, close, push_result, set_requests_done,
      set_inflight, set_requests_sent;
      repeat progress (simpl; rewrite ?Nat.eqb_refl, ?Hw).
    destruct (total_requests a <=? S k); reflexivity.
Qed.

Lemma ok_requests_state a b k :
  k <= total_requests a ->
  prun a init (ok_requests b k) =
  mkPipeline None k k (ok_rows b (k - warmup a))
    (if (0 <? k) && (total_requests a <=? k) then [(true, 256, "done"%string)] else []).
Proof.
  induction k as [|k IH]; intros Hk; [reflexivity|].
  simpl ok_requests; rewrite prun_app, IH by lia.
  assert (Hlt : (total_requests a <=? k) = false) by (apply Nat.leb_gt; lia).
  rewrite Hlt, andb_false_r, ok_request_step by lia. reflexivity.
Qed.

(** X9. When each of the [warmup + requests] requests gets a [200]
    response of [b] bytes and finishes, the run ends with nothing in
    flight, [warmup + requests] requests issued and completed, one row per
    measured request with indices [0 .. requests-1], status 200 and [b]
    bytes, and a single graceful close ([0x100], "done"), requested at the
    last completion. *)
Theorem X9_all_succeed_rows a b :
  (N.of_nat (warmup a) + N.of_nat (requests a) < U32_MOD)%N ->
  0 < total_requests a ->
  prun a init (ok_requests b (total_requests a)) =
  mkPipeline None (total_requests a) (total_requests a)
    (map (fun j => mkResult j 200%N 1 2 b) (seq 0 (requests a)))
    [(true, 256, "done"%string)].
Proof.
  intros Hw H.
  rewrite ok_requests_state by lia.
  apply Nat.ltb_lt in H; rewrite H, Nat.leb_refl; simpl.
  unfold ok_rows; rewrite (total_requests_no_wrap a Hw).
  do 3 f_equal. lia.
Qed.

Lemma X9_all_succeed_rows_witness :
  (N.of_nat (warmup (mkArgs 3 2)) + N.of_nat (requests (mkArgs 3 2)) < U32_MOD)%N /\
  0 < total_requests (mkArgs 3 2) /\
  prun (mkArgs 3 2) init (ok_requests 100 (total_requests (mkArgs 3 2))) =
  mkPipeline None 5 5
    [mkResult 0 200%N 1 2 100; mkResult 1 200%N 1 2 100; mkResult 2 200%N 1 2 100]
    [(true, 256, "done"%string)].
Proof.
  assert (Hw : (N.of_nat (warmup (mkArgs 3 2)) + N.of_nat (requests (mkArgs 3 2))
                < U32_MOD)%N) by (vm_compute; reflexivity).
  assert (H : 0 < total_requests (mkArgs 3 2)) by (vm_compute; lia).
  split; [exact Hw|split; [exact H|]].
  exact (X9_all_succeed_rows (mkArgs 3 2) 100 Hw H).
Defined.

(** X10. Until the QUIC handshake completes no HTTP/3 connection exists,
    and an iteration then neither issues a request nor processes an event:
    the in-flight slot, the counters and the results are kept; once created, the HTTP/3 connection is kept by every further
    iteration. *)
Theorem X10_no_request_before_established :
  (forall a t l l',
     h3 l = false -> t_established t = false ->
     iteration a t l = Next l' \/ iteration a t l = Break l' ->
     core (pl l') = core (pl l) /\ h3 l' = false) /\
  (forall a t l l',
     h3 l = true ->
     iteration a t l = Next l' \/ iteration a t l = Break l' -> h3 l' = true).
Proof.
  split.
  - intros a t l l' Hh He; unfold iteration.
    destruct (t_closed_after_recv t).
    { intros [H|H]; inversion H; subst; auto. }
    rewrite He, Hh; simpl; try rewrite maybe_issue_no_h3.
    destruct (flush _ _ _); try (intros [H|H]; discriminate).
    destruct (t_closed_after_send t); intros [H|H]; inversion H; subst; auto.
  - intros a t l l' Hh; unfold iteration.
    destruct (t_closed_after_recv t).
    { intros [H|H]; inversion H; subst; auto. }
    rewrite Hh, andb_false_r.
    destruct (maybe_issue _ _ _ _ _); try (intros [H|H]; discriminate).
    destruct (flush _ _ _); try (intros [H|H]; discriminate).
    destruct (t_closed_after_send t); intros [H|H]; inversion H; subst; auto.
Qed.

Lemma X10_no_request_before_established_witness :
  iteration args_3_0 (mkTick false false true 1 (SROk 0) [] [Packet; SendDone] [SockOk] false)
            (mkLoop init false) = Next (mkLoop init false) /\
  core init = core init.
Proof.
  split; [reflexivity|].
  exact (proj1 (proj1 X10_no_request_before_established args_3_0
                  (mkTick false false true 1 (SROk 0) [] [Packet; SendDone] [SockOk] false)
                  (mkLoop init false) (mkLoop init false) eq_refl eq_refl
                  (or_introl eq_refl))).
Defined.

(** ** The receive phase *)

(** Answer of [socket.recv_from(&mut buf)]; for a datagram, whether
    [conn.recv] accepts it. *)
Inductive RecvRes :=
| Datagram (pkt : string) (ingest_ok : bool)
| RecvWouldBlock
| RecvErr (e : string).

Inductive ReadOut :=
| TimedOut
| Drained (fed : list string) (logged : nat)
| ReadFailed (msg : string).

(** The body of the ['read] loop after the readiness check: each datagram
    is passed to [conn.recv] (an ingest error is only logged, counted in
    [logged]); [WouldBlock] ends the loop; any other error returns from
    [main]. The socket's answers end with [WouldBlock] (an exhausted list
    is read as [WouldBlock]). *)
Fixpoint recv_loop (rs : list RecvRes) (fed : list string) (logged : nat) : ReadOut :=
  match rs with
  | [] => Drained fed logged
  | Datagram p ok :: rest =>
      recv_loop rest (fed ++ [p]) (if ok then logged else S logged)
  | RecvWouldBlock :: _ => Drained fed logged
  | RecvErr e :: _ => ReadFailed ("recv() failed: " ++ e)%string
  end.

(** The ['read] loop: with no readiness event the poll timed out, so
    [conn.on_timeout()] is called and the socket is not read. *)
Definition read_phase (events_empty : bool) (rs : list RecvRes) : ReadOut :=
  if events_empty then TimedOut else recv_loop rs [] 0.

Definition datagrams (ps : list (string * bool)) : list RecvRes :=
  map (fun p => Datagram (fst p) (snd p)) ps.

Lemma recv_loop_datagrams ps : forall fed logged rest,
  recv_loop (datagrams ps ++ rest) fed logged =
  recv_loop rest (fed ++ map fst ps)
            (logged + List.length (filter (fun p => negb (snd p)) ps)).
Proof.
  induction ps as [|[p ok] ps IH]; intros fed logged rest; simpl.
  - rewrite app_nil_r, Nat.add_0_r; reflexivity.
  - rewrite IH, <- app_assoc. destruct ok; simpl; f_equal; lia.
Qed.

(** X11. When the socket is readable, every datagram received before
    [WouldBlock] is passed to [conn.recv], in order, whether or not the
    engine accepts it (rejections are only logged); a receive error other
    than [WouldBlock] aborts the run; when the poll timed out, the socket
    is not read at all. *)
Theorem X11_read_phase :
  (forall ps rest,
     read_phase false (datagrams ps ++ RecvWouldBlock :: rest) =
     Drained (map fst ps) (List.length (filter (fun p => negb (snd p)) ps))) /\
  (forall ps e rest,
     read_phase false (datagrams ps ++ RecvErr e :: rest) =
     ReadFailed ("recv() failed: " ++ e)%string) /\
  (forall rs, read_phase true rs = TimedOut).
Proof.
  unfold read_phase; split; [|split].
  - intros ps rest; rewrite recv_loop_datagrams; reflexivity.
  - intros ps e rest; rewrite recv_loop_datagrams; reflexivity.
  - reflexivity.
Qed.
